(** * AlphaQubit diagrams: the surface-code parity model and the decoder
      walkthrough counter of [src/components/Diagrams.tsx]

    The two React components keep their state in [useState] cells and change
    it through updater functions.  Each cell is modelled by a record field and
    each updater by a function on the record; what the component computes
    while rendering ([activeStabilizers]) is a function of the record.

    Identifiers are the integers the component uses as ids, modelled by [Z];
    arrays of ids are lists, in the order the array has them. *)

From Stdlib Require Import ZArith Lia.
From stdpp Require Import base decidable list gmap sets strings.

Local Open Scope Z_scope.

(** ** The surface-code diagram *)

Module SurfaceCode.

(** [xs.includes(id)] on an array of ids. *)
Definition includes (xs : list Z) (id : Z) : bool := bool_decide (id ∈ xs).

(** The updater shared by [toggleError] and [toggleMeasurementError]:
    [prev => prev.includes(id) ? prev.filter(e => e !== id) : [...prev, id]]. *)
Definition toggle (id : Z) (prev : list Z) : list Z :=
  if includes prev id then filter (λ e, e ≠ id) prev else prev ++ [id].

(** The two [useState] cells of [SurfaceCodeDiagram]. *)
Record State : Type := mkState {
  errors : list Z;
  measurementErrors : list Z
}.

(** Both cells start as the empty array. *)
Definition initial : State := mkState [] [].

Definition toggleError (id : Z) (st : State) : State :=
  mkState (toggle id (errors st)) (measurementErrors st).

Definition toggleMeasurementError (id : Z) (st : State) : State :=
  mkState (errors st) (toggle id (measurementErrors st)).

(** [resetAll] sets both cells to the empty array in one event handler. *)
Definition resetAll (st : State) : State := mkState [] [].

(** The ids the filter of [activeStabilizers] ranges over: [[0, 1, 2, 3]]. *)
Definition stabilizers : list Z := [0; 1; 2; 3].

(** The computation of [activeStabilizers], with the adjacency table it
    closes over made a variable.  The table is given as [Object.entries]
    lists it: one pair per key, the key already read back by [parseInt]. *)
Section Topology.

Variable adj : list (Z * list Z).

(** The [forEach] loop over the entries, with its counter [errorCount]
    passed along. *)
Definition errorCount (errs : list Z) (stabId : Z) : Z :=
  fold_left
    (λ count entry,
       if includes errs entry.1 && includes entry.2 stabId
       then count + 1 else count)
    adj 0.

(** The body of the filter callback for one [stabId]. *)
Definition isActive (st : State) (stabId : Z) : bool :=
  let calculatedParity := negb (Z.rem (errorCount (errors st) stabId) 2 =? 0) in
  let isMeasurementError := includes (measurementErrors st) stabId in
  if calculatedParity then negb isMeasurementError else isMeasurementError.

Definition activeStabilizersOver (st : State) : list Z :=
  filter (λ stabId, isActive st stabId = true) stabilizers.

(** The sites of the table and its incidence relation, as the
    specification names them. *)
Definition sites : list Z := adj.*1.

Definition incident (s c : Z) : Prop :=
  Exists (λ entry, entry.1 = s ∧ c ∈ entry.2) adj.

#[global] Instance incident_dec s c : Decision (incident s c).
Proof. unfold incident. apply _. Defined.

(** The specification's words: the number of sites with [hasError] that
    are incident to the check, its parity, and the XOR law. *)
Definition spec_faultedIncident (st : State) (c : Z) : list Z :=
  filter (λ s, s ∈ errors st ∧ incident s c) sites.

Definition spec_parity (st : State) (c : Z) : bool :=
  bool_decide (Z.of_nat (length (spec_faultedIncident st c)) mod 2 = 1).

Definition spec_measurementCorrupted (st : State) (c : Z) : bool :=
  bool_decide (c ∈ measurementErrors st).

Definition spec_reported (st : State) (c : Z) : bool :=
  xorb (spec_parity st c) (spec_measurementCorrupted st c).

End Topology.

(** The adjacency list of the component: data qubit index to stabilizer
    indices. *)
Definition adjacency : list (Z * list Z) :=
  [ (0, [0; 1]);
    (1, [0; 2]);
    (2, [1; 3]);
    (3, [2; 3]);
    (4, [0; 1; 2; 3]) ].

Definition activeStabilizers (st : State) : list Z :=
  activeStabilizersOver adjacency st.

(** The test of the status line:
    [errors.length === 0 && measurementErrors.length === 0]. *)
Definition systemStable (st : State) : bool :=
  (length (errors st) =? 0)%nat && (length (measurementErrors st) =? 0)%nat.

(** Another small table, in which site 0 sits on an edge and touches one
    check only; the table of the component has no such site. *)
Definition edge_table : list (Z * list Z) := [ (0, [1]); (4, [0; 1; 2; 3]) ].

(** The state as the specification's [getState] exposes it: the three arrays
    read as sets of ids.  The component itself has no such function; it
    renders from the arrays through [includes]. *)
Record View : Type := mkView {
  siteFaults : gset Z;
  checkCorruptions : gset Z;
  reportingChecks : gset Z
}.

Definition getState (st : State) : View :=
  mkView (list_to_set (errors st))
         (list_to_set (measurementErrors st))
         (list_to_set (activeStabilizers st)).

(** The user's gestures, and the states they lead to from [initial]. *)
Inductive action : Type :=
  | ToggleError (id : Z)
  | ToggleMeasurementError (id : Z)
  | ResetAll.

Definition perform (a : action) (st : State) : State :=
  match a with
  | ToggleError id => toggleError id st
  | ToggleMeasurementError id => toggleMeasurementError id st
  | ResetAll => resetAll st
  end.

Definition run (acts : list action) (st : State) : State :=
  fold_left (λ s a, perform a s) acts st.

Inductive reachable : State → Prop :=
  | reachable_initial : reachable initial
  | reachable_perform a st : reachable st → reachable (perform a st).

#[global] Instance action_eq_dec : EqDecision action.
Proof. solve_decision. Defined.

(** The ids of the buttons the component renders: the data qubits in the
    order of the array they are mapped from, and the four stabilizers. *)
Definition dataQubits : list Z := [0; 1; 4; 2; 3].
Definition stabilizerButtons : list Z := [0; 1; 2; 3].

(** A gesture the rendered component offers: a click on one of those
    buttons, or on the reset button. *)
Definition clickable (a : action) : Prop :=
  match a with
  | ToggleError id => id ∈ dataQubits
  | ToggleMeasurementError id => id ∈ stabilizerButtons
  | ResetAll => True
  end.

Inductive clickReachable : State → Prop :=
  | click_initial : clickReachable initial
  | click_perform a st :
      clickReachable st → clickable a → clickReachable (perform a st).

(** The ids of [universe] that an array holds, in the order of [universe]. *)
Definition restrict (ids universe : list Z) : list Z :=
  filter (λ x, x ∈ ids) universe.

(** How often a gesture occurs in a sequence of gestures. *)
Definition occurrences (a : action) (acts : list action) : nat :=
  length (filter (λ b, b = a) acts).

End SurfaceCode.

(** ** The decoder walkthrough *)

Module TransformerDecoder.

(** The [useState] cells of [TransformerDecoderDiagram]. *)
Record State : Type := mkState {
  step : Z;
  isPlaying : bool;
  attentionHeads : Z
}.

Definition initial : State := mkState 0 true 4.

(** The updaters handed to [setStep]; [%] is the remainder that takes the
    sign of the dividend, [Z.rem]. *)
Definition advance (s : Z) : Z := Z.rem (s + 1) 4.
Definition retreat (s : Z) : Z := Z.rem (s - 1 + 4) 4.

Definition nextStep (st : State) : State :=
  mkState (advance (step st)) (isPlaying st) (attentionHeads st).

Definition prevStep (st : State) : State :=
  mkState (retreat (step st)) (isPlaying st) (attentionHeads st).

(** The callback of the two-second interval. *)
Definition autoAdvance (st : State) : State :=
  mkState (advance (step st)) (isPlaying st) (attentionHeads st).

Definition togglePlaying (st : State) : State :=
  mkState (step st) (negb (isPlaying st)) (attentionHeads st).

Definition setAttentionHeads (n : Z) (st : State) : State :=
  mkState (step st) (isPlaying st) n.

(** One event of the component.  The interval only exists while
    [isPlaying]; the two chevron buttons are disabled while it does. *)
Inductive transition : State → State → Prop :=
  | t_tick st : isPlaying st = true → transition st (autoAdvance st)
  | t_next st : isPlaying st = false → transition st (nextStep st)
  | t_prev st : isPlaying st = false → transition st (prevStep st)
  | t_play st : transition st (togglePlaying st)
  | t_heads n st : 1 ≤ n ≤ 8 → transition st (setAttentionHeads n st).

Inductive reachable : State → Prop :=
  | reachable_initial : reachable initial
  | reachable_transition st st' :
      reachable st → transition st st' → reachable st'.

(** The captions of the four steps, [title] and [desc]. *)
Definition stepsInfo : list (string * string) :=
  [ ("Syndrome Input", "Noisy measurement data enters the model.");
    ("Attention Layer", "Model attends to spatial & temporal correlations.");
    ("Processing", "Deep layers refine the error probability map.");
    ("Prediction", "Final output: Correcting the logical error.") ]%string.

(** [stepsInfo[step]]: [undefined], here [None], outside the array. *)
Definition stepsInfoAt (s : Z) : option (string * string) :=
  if s <? 0 then None else stepsInfo !! Z.to_nat s.

(** The progress bar: one dot per [s] of [[0, 1, 2, 3]], wide when
    [step === s]. *)
Definition progressBar (st : State) : list bool :=
  (λ s, bool_decide (step st = s)) <$> [0; 1; 2; 3].

(** The three stages of the picture and the test that highlights each:
    [step === 0], [step === 1 || step === 2], [step === 3]. *)
Definition stageHighlights (st : State) : list bool :=
  [ bool_decide (step st = 0);
    bool_decide (step st = 1) || bool_decide (step st = 2);
    bool_decide (step st = 3) ].

End TransformerDecoder.

Import SurfaceCode.

(** ** The parity law *)

Section ParityLaw.

Lemma includes_true (xs : list Z) (id : Z) : includes xs id = true ↔ id ∈ xs.
Proof. unfold includes. apply bool_decide_eq_true. Qed.

Lemma includes_false (xs : list Z) (id : Z) : includes xs id = false ↔ id ∉ xs.
Proof. unfold includes. apply bool_decide_eq_false. Qed.

(** Two predicates that agree on the elements of a list filter it alike. *)
Lemma filter_agree {A} (P Q : A → Prop)
    `{!∀ x, Decision (P x)} `{!∀ x, Decision (Q x)} (l : list A) :
  (∀ x, x ∈ l → (P x ↔ Q x)) → filter P l = filter Q l.
Proof.
  induction l as [|a l IH]; intros Hagree; [done|].
  rewrite !filter_cons.
  rewrite IH by (intros x Hx; apply Hagree; by right).
  destruct (decide (P a)) as [HP|HP], (decide (Q a)) as [HQ|HQ]; try done.
  - destruct HQ. apply Hagree; [left|done].
  - destruct HP. apply Hagree; [left|done].
Qed.

Lemma incident_cons k stabs rest (s c : Z) :
  incident ((k, stabs) :: rest) s c ↔ (k = s ∧ c ∈ stabs) ∨ incident rest s c.
Proof. unfold incident. by rewrite Exists_cons. Qed.

Lemma incident_site adj (s c : Z) : incident adj s c → s ∈ sites adj.
Proof.
  unfold incident, sites. rewrite Exists_exists.
  intros ([k stabs] & Hin & Hk & _). simpl in Hk. subst k.
  apply list_elem_of_fmap. by exists (s, stabs).
Qed.

(** With one entry per site, counting entries is counting sites. *)
Lemma entries_sites adj (errs : list Z) (c : Z) :
  NoDup (sites adj) →
  length (filter (λ entry, entry.1 ∈ errs ∧ c ∈ entry.2) adj) =
  length (filter (λ s, s ∈ errs ∧ incident adj s c) (sites adj)).
Proof.
  unfold sites.
  induction adj as [|[k stabs] rest IH]; [done|].
  rewrite fmap_cons. simpl. rewrite NoDup_cons. intros [Hfresh Hrest].
  rewrite !filter_cons. simpl.
  rewrite (filter_agree (λ s, s ∈ errs ∧ incident ((k, stabs) :: rest) s c)
                        (λ s, s ∈ errs ∧ incident rest s c)).
  2:{ intros s Hs. rewrite incident_cons.
      split; [|tauto]. intros [He [[-> _]|Hi]]; [done|tauto]. }
  destruct (decide (k ∈ errs ∧ c ∈ stabs)) as [[Hk Hc]|Hno].
  - rewrite decide_True by (rewrite incident_cons; tauto).
    simpl. by rewrite IH.
  - rewrite decide_False; [by apply IH|].
    rewrite incident_cons. intros [He [[_ Hc]|Hi]]; [tauto|].
    by apply incident_site in Hi.
Qed.

Variable adj : list (Z * list Z).

(** The loop counts the entries whose site is faulted and whose list has
    the check. *)
Lemma errorCount_entries (errs : list Z) (c : Z) :
  errorCount adj errs c =
  Z.of_nat (length (filter (λ entry, entry.1 ∈ errs ∧ c ∈ entry.2) adj)).
Proof.
  unfold errorCount.
  change 0 with (Z.of_nat 0) at 1.
  rewrite <- (Nat.add_0_l (length _)).
  generalize 0%nat as acc.
  induction adj as [|[k stabs] rest IH]; intros acc; simpl.
  - f_equal. lia.
  - rewrite filter_cons. simpl.
    destruct (decide (k ∈ errs ∧ c ∈ stabs)) as [[Hk Hc]|Hno].
    + rewrite (proj2 (includes_true errs k) Hk).
      rewrite (proj2 (includes_true stabs c) Hc). simpl.
      replace (Z.of_nat acc + 1) with (Z.of_nat (S acc)) by lia.
      rewrite IH. f_equal. lia.
    + assert (includes errs k && includes stabs c = false) as ->.
      { apply andb_false_iff.
        destruct (decide (k ∈ errs)) as [Hk|Hk].
        - right. apply includes_false. intros Hc. by apply Hno.
        - left. by apply includes_false. }
      apply IH.
Qed.

Hypothesis adj_keys : NoDup (sites adj).

Lemma errorCount_spec (st : State) (c : Z) :
  errorCount adj (errors st) c =
  Z.of_nat (length (spec_faultedIncident adj st c)).
Proof.
  rewrite errorCount_entries. unfold spec_faultedIncident.
  by rewrite entries_sites.
Qed.

(** The conditional of the callback is the XOR law. *)
Lemma isActive_spec (st : State) (c : Z) :
  isActive adj st c = spec_reported adj st c.
Proof.
  unfold isActive, spec_reported, spec_parity, spec_measurementCorrupted.
  rewrite errorCount_spec. unfold includes.
  set (n := Z.of_nat _). assert (0 ≤ n) as Hn by (subst n; lia).
  rewrite Z.rem_mod_nonneg by lia.
  assert (negb (n mod 2 =? 0) = bool_decide (n mod 2 = 1)) as ->.
  { pose proof (Z.mod_pos_bound n 2 ltac:(lia)) as Hb.
    destruct (Z.eqb_spec (n mod 2) 0) as [H0|H0]; simpl; symmetry.
    - apply bool_decide_eq_false. lia.
    - apply bool_decide_eq_true. lia. }
  by destruct (bool_decide (n mod 2 = 1)), (bool_decide (c ∈ _)).
Qed.

Lemma active_iff (st : State) (c : Z) :
  c ∈ activeStabilizersOver adj st ↔
  c ∈ stabilizers ∧ spec_reported adj st c = true.
Proof.
  unfold activeStabilizersOver. rewrite list_elem_of_filter.
  rewrite isActive_spec. tauto.
Qed.

End ParityLaw.

Lemma adjacency_keys : NoDup (sites adjacency).
Proof. apply (bool_decide_unpack _). by vm_compute. Qed.

(** C1. For every state and every check of the component,
    [activeStabilizers] has the check if and only if the parity of the
    number of faulted sites incident to it, XOR the check's corruption flag,
    is true. *)
Theorem activeStabilizers_xor_law (st : State) (c : Z) :
  c ∈ stabilizers →
  (c ∈ activeStabilizers st ↔
   xorb (bool_decide
           (Z.of_nat (length (spec_faultedIncident adjacency st c)) mod 2 = 1))
        (bool_decide (c ∈ measurementErrors st)) = true).
Proof.
  intros Hc. unfold activeStabilizers.
  rewrite (active_iff adjacency adjacency_keys).
  unfold spec_reported, spec_parity, spec_measurementCorrupted. tauto.
Qed.

Lemma activeStabilizers_xor_law_witness :
  2 ∈ stabilizers ∧
  (2 ∈ activeStabilizers (mkState [4; 0] [1]) ↔
   xorb (bool_decide
           (Z.of_nat (length (spec_faultedIncident adjacency
                                (mkState [4; 0] [1]) 2)) mod 2 = 1))
        (bool_decide (2 ∈ measurementErrors (mkState [4; 0] [1]))) = true).
Proof.
  assert (2 ∈ stabilizers) as H by (apply (bool_decide_unpack _); by vm_compute).
  split; [exact H|].
  exact (activeStabilizers_xor_law (mkState [4; 0] [1]) 2 H).
Defined.

(** ** States that agree on membership *)

Section Agreement.

Variable adj : list (Z * list Z).

(** [errorCount] reads the fault array only through [includes], and only
    at the sites of the table. *)
Lemma errorCount_agree (errs errs' : list Z) (c : Z) :
  (∀ s, s ∈ sites adj → (s ∈ errs ↔ s ∈ errs')) →
  errorCount adj errs c = errorCount adj errs' c.
Proof.
  intros Hsame. rewrite !errorCount_entries. do 2 f_equal.
  apply filter_agree. intros [k stabs] Hin. simpl.
  assert (k ∈ sites adj) as Hk.
  { apply list_elem_of_fmap. by exists (k, stabs). }
  specialize (Hsame k Hk). tauto.
Qed.

Lemma isActive_agree (st st' : State) (c : Z) :
  (∀ s, s ∈ sites adj → (s ∈ errors st ↔ s ∈ errors st')) →
  (c ∈ measurementErrors st ↔ c ∈ measurementErrors st') →
  isActive adj st c = isActive adj st' c.
Proof.
  intros Herr Hmeas. unfold isActive.
  rewrite (errorCount_agree _ _ c Herr).
  assert (includes (measurementErrors st) c
          = includes (measurementErrors st') c) as ->; [|done].
  unfold includes. by apply bool_decide_ext.
Qed.

Lemma active_agree (st st' : State) :
  (∀ s, s ∈ sites adj → (s ∈ errors st ↔ s ∈ errors st')) →
  (∀ c, c ∈ stabilizers →
        (c ∈ measurementErrors st ↔ c ∈ measurementErrors st')) →
  activeStabilizersOver adj st = activeStabilizersOver adj st'.
Proof.
  intros Herr Hmeas. unfold activeStabilizersOver.
  apply filter_agree. intros c Hc.
  by rewrite (isActive_agree st st' c Herr (Hmeas c Hc)).
Qed.

End Agreement.

(** ** The toggle updater *)

Section Toggle.

Implicit Types (l : list Z) (id x : Z).

Lemma toggle_absent id l : id ∉ l → toggle id l = l ++ [id].
Proof. intros H. unfold toggle. by rewrite (proj2 (includes_false l id) H). Qed.

Lemma toggle_present id l : id ∈ l → toggle id l = filter (λ e, e ≠ id) l.
Proof. intros H. unfold toggle. by rewrite (proj2 (includes_true l id) H). Qed.

Lemma elem_of_toggle id l x :
  x ∈ toggle id l ↔ (x ≠ id ∧ x ∈ l) ∨ (x = id ∧ id ∉ l).
Proof.
  destruct (decide (id ∈ l)) as [Hin|Hout].
  - rewrite toggle_present by done. rewrite list_elem_of_filter. tauto.
  - rewrite toggle_absent by done. rewrite elem_of_app, list_elem_of_singleton.
    destruct (decide (x = id)) as [->|Hne]; tauto.
Qed.

(** Toggling flips the membership of [id] and of nothing else. *)
Lemma toggle_flips id l : id ∈ toggle id l ↔ id ∉ l.
Proof. rewrite elem_of_toggle. tauto. Qed.

Lemma toggle_others id l x : x ≠ id → (x ∈ toggle id l ↔ x ∈ l).
Proof. intros Hne. rewrite elem_of_toggle. tauto. Qed.

Lemma toggle_twice_elem id l x : x ∈ toggle id (toggle id l) ↔ x ∈ l.
Proof.
  destruct (decide (x = id)) as [->|Hne].
  - rewrite !toggle_flips. destruct (decide (id ∈ l)); tauto.
  - by rewrite !toggle_others.
Qed.

Lemma filter_ne_absent id l : id ∉ l → filter (λ e, e ≠ id) l = l.
Proof.
  induction l as [|a l IH]; [done|].
  rewrite not_elem_of_cons. intros [Hne Hl].
  rewrite filter_cons_True by done. by rewrite IH.
Qed.

(** On the arrays themselves: an absent id is appended and removed again;
    a present id is removed and then appended at the end. *)
Lemma toggle_twice_absent id l : id ∉ l → toggle id (toggle id l) = l.
Proof.
  intros Hout. rewrite (toggle_absent id l Hout).
  rewrite toggle_present by (rewrite elem_of_app, list_elem_of_singleton; tauto).
  rewrite filter_app, filter_ne_absent by done.
  rewrite filter_cons_False by (intros H; by apply H).
  by rewrite filter_nil, app_nil_r.
Qed.

Lemma toggle_twice_present id l :
  id ∈ l → toggle id (toggle id l) = filter (λ e, e ≠ id) l ++ [id].
Proof.
  intros Hin. rewrite (toggle_present id l Hin).
  apply toggle_absent. rewrite list_elem_of_filter. tauto.
Qed.

Lemma toggle_twice_empty id l :
  (length (toggle id (toggle id l)) =? 0)%nat = (length l =? 0)%nat.
Proof.
  destruct (decide (id ∈ l)) as [Hin|Hout].
  - rewrite toggle_twice_present by done. rewrite length_app. simpl.
    destruct l as [|a l]; [by apply elem_of_nil in Hin|].
    simpl. apply Nat.eqb_neq. lia.
  - by rewrite toggle_twice_absent.
Qed.

Lemma toggle_NoDup id l : NoDup l → NoDup (toggle id l).
Proof.
  intros Hl. destruct (decide (id ∈ l)) as [Hin|Hout].
  - rewrite toggle_present by done. by apply NoDup_filter.
  - rewrite toggle_absent by done. apply NoDup_app.
    split; [done|]. split; [|apply NoDup_singleton].
    intros x Hx. rewrite list_elem_of_singleton. by intros ->.
Qed.

Lemma list_to_set_agree l l' :
  (∀ x, x ∈ l ↔ x ∈ l') → list_to_set l =@{gset Z} list_to_set l'.
Proof. intros H. apply set_eq. intros x. by rewrite !elem_of_list_to_set. Qed.

End Toggle.

Example toggle_twice_reorders : toggle 0 (toggle 0 [0; 1]) = [1; 0].
Proof. reflexivity. Qed.

(** ** Reset and the two toggles *)

Lemma reachable_run (acts : list action) : reachable (run acts initial).
Proof.
  unfold run. rewrite <- (rev_involutive acts).
  induction (rev acts) as [|a l IH]; simpl; [constructor|].
  rewrite fold_left_app. simpl. by constructor.
Qed.

(** C2. From every reachable state, [resetAll] leads to a state whose fault
    array and corruption array are empty and whose [activeStabilizers] is
    empty. *)
Theorem resetAll_clears (st : State) :
  reachable st →
  errors (resetAll st) = [] ∧
  measurementErrors (resetAll st) = [] ∧
  activeStabilizers (resetAll st) = [] ∧
  getState (resetAll st) = mkView ∅ ∅ ∅.
Proof. intros _. by repeat split. Qed.

Lemma resetAll_clears_witness :
  reachable (mkState [4; 0] [1]) ∧
  errors (resetAll (mkState [4; 0] [1])) = [] ∧
  measurementErrors (resetAll (mkState [4; 0] [1])) = [] ∧
  activeStabilizers (resetAll (mkState [4; 0] [1])) = [] ∧
  getState (resetAll (mkState [4; 0] [1])) = mkView ∅ ∅ ∅.
Proof.
  set (st := mkState [4; 0] [1]).
  assert (reachable st) as H
    by apply (reachable_run
                [ToggleError 4; ToggleMeasurementError 1; ToggleError 0]).
  split; [exact H|]. exact (resetAll_clears st H).
Defined.

Lemma getState_agree (st st' : State) :
  (∀ x, x ∈ errors st ↔ x ∈ errors st') →
  (∀ x, x ∈ measurementErrors st ↔ x ∈ measurementErrors st') →
  getState st = getState st'.
Proof.
  intros Herr Hmeas. unfold getState, activeStabilizers.
  rewrite (active_agree adjacency st st') by auto.
  by rewrite (list_to_set_agree _ _ Herr), (list_to_set_agree _ _ Hmeas).
Qed.

(** C3. For every state and every site id, [toggleError] applied twice is
    the identity on the state [getState] exposes: the same set of faulted
    sites, the same set of corrupted checks, the same reporting checks.
    (The array behind the set of faulted sites is described by
    [toggle_twice_absent] and [toggle_twice_present].) *)
Theorem toggleError_twice (st : State) (id : Z) :
  getState (toggleError id (toggleError id st)) = getState st.
Proof.
  apply getState_agree; simpl; [|done].
  intros x. apply toggle_twice_elem.
Qed.

(** Nothing the component renders tells the two states apart either: the
    [includes] tests, the list of active stabilizers and the status line. *)
Lemma toggleError_twice_rendering (st : State) (id : Z) :
  let st' := toggleError id (toggleError id st) in
  (∀ x, includes (errors st') x = includes (errors st) x) ∧
  measurementErrors st' = measurementErrors st ∧
  activeStabilizers st' = activeStabilizers st ∧
  systemStable st' = systemStable st.
Proof.
  simpl. split; [|split; [done|split]].
  - intros x. unfold includes. apply bool_decide_ext, toggle_twice_elem.
  - apply active_agree; simpl; [|done]. intros s _. apply toggle_twice_elem.
  - unfold systemStable. simpl. by rewrite toggle_twice_empty.
Qed.

(** C4. For every state and every check id, [toggleMeasurementError] applied
    twice is the identity on the state [getState] exposes. *)
Theorem toggleMeasurementError_twice (st : State) (id : Z) :
  getState (toggleMeasurementError id (toggleMeasurementError id st))
  = getState st.
Proof.
  apply getState_agree; simpl; [done|].
  intros x. apply toggle_twice_elem.
Qed.

Lemma toggleMeasurementError_twice_rendering (st : State) (id : Z) :
  let st' := toggleMeasurementError id (toggleMeasurementError id st) in
  errors st' = errors st ∧
  (∀ x, includes (measurementErrors st') x
        = includes (measurementErrors st) x) ∧
  activeStabilizers st' = activeStabilizers st ∧
  systemStable st' = systemStable st.
Proof.
  simpl. split; [done|split; [|split]].
  - intros x. unfold includes. apply bool_decide_ext, toggle_twice_elem.
  - apply active_agree; simpl; [done|]. intros c _. apply toggle_twice_elem.
  - unfold systemStable. simpl. by rewrite toggle_twice_empty.
Qed.

(** C10. In every state reached from [initial] by toggles and resets, the
    fault array and the corruption array hold each id at most once. *)
Theorem reachable_NoDup (st : State) :
  reachable st → NoDup (errors st) ∧ NoDup (measurementErrors st).
Proof.
  induction 1 as [|a st _ [IHe IHm]].
  - split; apply NoDup_nil_2.
  - destruct a as [id|id|]; simpl; split;
      auto using toggle_NoDup, NoDup_nil_2.
Qed.

Lemma reachable_NoDup_witness :
  reachable (mkState [0; 4] [1]) ∧
  NoDup (errors (mkState [0; 4] [1])) ∧
  NoDup (measurementErrors (mkState [0; 4] [1])).
Proof.
  set (st := mkState [0; 4] [1]).
  assert (reachable st) as H
    by apply (reachable_run
                [ToggleError 4; ToggleMeasurementError 1; ToggleError 0;
                 ToggleError 4; ToggleError 4]).
  split; [exact H|]. exact (reachable_NoDup st H).
Defined.

(** ** Ids outside the table *)

(** C8, as stated, fails: the toggles do not look at the table, so an id
    that is neither a site nor a check is added to the array like any
    other. *)
Lemma unknown_id_is_recorded :
  (7 ∉ sites adjacency) ∧
  getState (toggleError 7 initial) ≠ getState initial ∧
  (7 ∉ stabilizers) ∧
  getState (toggleMeasurementError 7 initial) ≠ getState initial ∧
  errors (toggleError 7 initial) = [7] ∧
  measurementErrors (toggleMeasurementError 7 initial) = [7] ∧
  systemStable initial = true ∧
  systemStable (toggleError 7 initial) = false ∧
  systemStable (toggleMeasurementError 7 initial) = false.
Proof.
  assert (7 ∈ (∅ : gset Z) → False) as Hempty by set_solver.
  repeat split.
  - apply (bool_decide_unpack _). by vm_compute.
  - intros H. apply (f_equal siteFaults) in H. simpl in H.
    apply Hempty. rewrite <- H. set_solver.
  - apply (bool_decide_unpack _). by vm_compute.
  - intros H. apply (f_equal checkCorruptions) in H. simpl in H.
    apply Hempty. rewrite <- H. set_solver.
Qed.

(** C8, amended. For an id that is not a site of the table, [toggleError]
    flips the id's membership in the fault array and leaves the other ids,
    the corruption array and [activeStabilizers] as they were; likewise
    [toggleMeasurementError] for an id that is not one of the checks. *)
Theorem unknown_id_keeps_report (st : State) (sid cid : Z) :
  sid ∉ sites adjacency →
  cid ∉ stabilizers →
  ((sid ∈ errors (toggleError sid st) ↔ sid ∉ errors st) ∧
   (∀ x, x ≠ sid → (x ∈ errors (toggleError sid st) ↔ x ∈ errors st)) ∧
   measurementErrors (toggleError sid st) = measurementErrors st ∧
   activeStabilizers (toggleError sid st) = activeStabilizers st) ∧
  ((cid ∈ measurementErrors (toggleMeasurementError cid st)
    ↔ cid ∉ measurementErrors st) ∧
   (∀ x, x ≠ cid → (x ∈ measurementErrors (toggleMeasurementError cid st)
                    ↔ x ∈ measurementErrors st)) ∧
   errors (toggleMeasurementError cid st) = errors st ∧
   activeStabilizers (toggleMeasurementError cid st) = activeStabilizers st).
Proof.
  intros Hsid Hcid. split; (split; [apply toggle_flips|]);
    (split; [intros x Hx; by apply toggle_others|]); (split; [done|]);
    unfold activeStabilizers; apply active_agree; simpl; try done.
  - intros s Hs. apply toggle_others. by intros ->.
  - intros c Hc. apply toggle_others. by intros ->.
Qed.

Lemma unknown_id_keeps_report_witness :
  (7 ∉ sites adjacency) ∧ (9 ∉ stabilizers) ∧
  activeStabilizers (toggleError 7 (mkState [4; 0] [1]))
  = activeStabilizers (mkState [4; 0] [1]) ∧
  activeStabilizers (toggleMeasurementError 9 (mkState [4; 0] [1]))
  = activeStabilizers (mkState [4; 0] [1]).
Proof.
  set (st := mkState [4; 0] [1]).
  assert (7 ∉ sites adjacency) as H7
    by (apply (bool_decide_unpack _); by vm_compute).
  assert (9 ∉ stabilizers) as H9
    by (apply (bool_decide_unpack _); by vm_compute).
  pose proof (unknown_id_keeps_report st 7 9 H7 H9) as [(_ & _ & _ & Hs) (_ & _ & _ & Hc)].
  by repeat split.
Defined.

(** ** Scenarios with one fault or one corruption *)

Section Scenarios.

Lemma filter_eq_NoDup (l : list Z) (s : Z) :
  NoDup l → s ∈ l → filter (λ x, x = s) l = [s].
Proof.
  induction l as [|a l IH]; [by rewrite elem_of_nil|].
  rewrite NoDup_cons, elem_of_cons. intros [Ha Hl] Hs.
  destruct (decide (a = s)) as [->|Hne].
  - rewrite filter_cons_True by done. f_equal.
    clear IH Hl Hs. induction l as [|b l IH]; [done|].
    apply not_elem_of_cons in Ha as [Hb Ha].
    rewrite filter_cons_False by congruence. by apply IH.
  - rewrite filter_cons_False by done. apply IH; [done|].
    destruct Hs as [->|Hs]; done.
Qed.

Lemma filter_none {A} (P : A → Prop) `{!∀ x, Decision (P x)} (l : list A) :
  (∀ x, x ∈ l → ¬ P x) → filter P l = [].
Proof.
  induction l as [|a l IH]; intros Hno; [done|].
  rewrite filter_cons_False by (apply Hno; left).
  apply IH. intros x Hx. apply Hno. by right.
Qed.

Variable adj : list (Z * list Z).
Hypothesis adj_keys : NoDup (sites adj).

(** With no site faulted, no check has odd parity. *)
Lemma no_fault_parity (st : State) (c : Z) :
  errors st = [] → spec_parity adj st c = false.
Proof.
  intros Herr. unfold spec_parity, spec_faultedIncident.
  rewrite filter_none; [done|].
  intros s _ [Hs _]. rewrite Herr in Hs. by apply elem_of_nil in Hs.
Qed.

(** With exactly the site [s] faulted, the checks of odd parity are the
    checks [s] is incident to. *)
Lemma single_fault_parity (st : State) (s c : Z) :
  (∀ x, x ∈ errors st ↔ x = s) →
  spec_parity adj st c = bool_decide (incident adj s c).
Proof.
  intros Honly. unfold spec_parity, spec_faultedIncident.
  destruct (decide (incident adj s c)) as [Hinc|Hinc].
  - rewrite (filter_agree _ (λ x, x = s)).
    2:{ intros x _. rewrite Honly. split; [tauto|]. by intros ->. }
    rewrite filter_eq_NoDup by eauto using incident_site.
    by rewrite (bool_decide_eq_true_2 _ Hinc).
  - rewrite filter_none.
    2:{ intros x _ [Hx Hi]. apply Honly in Hx. by subst x. }
    by rewrite (bool_decide_eq_false_2 _ Hinc).
Qed.

(** A fault on a site incident to exactly one check, nothing corrupted. *)
Lemma single_check_site_reports (st : State) (s c : Z) :
  c ∈ stabilizers →
  (∀ x, incident adj s x ↔ x = c) →
  (∀ x, x ∈ errors st ↔ x = s) →
  measurementErrors st = [] →
  activeStabilizersOver adj st = [c].
Proof.
  intros Hc Hone Honly Hmeas. unfold activeStabilizersOver.
  rewrite (filter_agree _ (λ x, x = c)).
  - apply filter_eq_NoDup; [|done].
    apply (bool_decide_unpack _). by vm_compute.
  - intros x _. rewrite (isActive_spec adj adj_keys).
    unfold spec_reported, spec_measurementCorrupted.
    rewrite (single_fault_parity st s x Honly), Hmeas.
    rewrite (bool_decide_eq_false_2 (x ∈ [])) by apply not_elem_of_nil.
    rewrite xorb_false_r, bool_decide_eq_true. apply Hone.
Qed.

End Scenarios.

(** C5. For every check [c] and site [s] incident to it: in a state where
    [s] is the only faulted site and [c] the only corrupted check, [c] is not
    in [activeStabilizers]. *)
Theorem fault_and_corruption_cancel (st : State) (s c : Z) :
  incident adjacency s c →
  (∀ x, x ∈ errors st ↔ x = s) →
  (∀ x, x ∈ measurementErrors st ↔ x = c) →
  c ∉ activeStabilizers st.
Proof.
  intros Hinc Honly Hcor. unfold activeStabilizers.
  rewrite (active_iff adjacency adjacency_keys). intros [_ Hrep].
  unfold spec_reported, spec_measurementCorrupted in Hrep.
  rewrite (single_fault_parity adjacency adjacency_keys st s c Honly) in Hrep.
  rewrite bool_decide_eq_true_2 in Hrep by done.
  rewrite bool_decide_eq_true_2 in Hrep by (by apply Hcor).
  done.
Qed.

Lemma fault_and_corruption_cancel_witness :
  incident adjacency 4 2 ∧ (2 ∉ activeStabilizers (mkState [4] [2])).
Proof.
  assert (incident adjacency 4 2) as Hinc
    by (apply (bool_decide_unpack _); by vm_compute).
  split; [exact Hinc|].
  apply (fault_and_corruption_cancel (mkState [4] [2]) 4 2 Hinc); simpl;
    intros x; apply list_elem_of_singleton.
Defined.

(** C6. In a state with no site fault and exactly the check [c] corrupted,
    [activeStabilizers] is that check and no other. *)
Theorem lone_corruption_reports (st : State) (c : Z) :
  c ∈ stabilizers →
  errors st = [] →
  (∀ x, x ∈ measurementErrors st ↔ x = c) →
  activeStabilizers st = [c].
Proof.
  intros Hc Herr Hcor. unfold activeStabilizers, activeStabilizersOver.
  rewrite (filter_agree _ (λ x, x = c)).
  - apply filter_eq_NoDup; [|done].
    apply (bool_decide_unpack _). by vm_compute.
  - intros x _. rewrite (isActive_spec adjacency adjacency_keys).
    unfold spec_reported, spec_measurementCorrupted.
    rewrite (no_fault_parity adjacency st x Herr). simpl.
    by rewrite bool_decide_eq_true.
Qed.

Lemma lone_corruption_reports_witness :
  3 ∈ stabilizers ∧ activeStabilizers (mkState [] [3]) = [3].
Proof.
  assert (3 ∈ stabilizers) as Hc
    by (apply (bool_decide_unpack _); by vm_compute).
  split; [exact Hc|].
  apply (lone_corruption_reports (mkState [] [3]) 3 Hc); simpl; [done|].
  intros x; apply list_elem_of_singleton.
Defined.

(** C7. For every adjacency table with one entry per site, and every site
    incident to exactly one check: with only that site faulted and nothing
    corrupted, the reporting checks are exactly that one check. *)
Theorem single_check_fault_reports
    (adj : list (Z * list Z)) (st : State) (s c : Z) :
  NoDup (sites adj) →
  c ∈ stabilizers →
  (∀ x, incident adj s x ↔ x = c) →
  (∀ x, x ∈ errors st ↔ x = s) →
  measurementErrors st = [] →
  activeStabilizersOver adj st = [c].
Proof. intros Hkeys. by apply single_check_site_reports. Qed.

Lemma single_check_fault_reports_witness :
  NoDup (sites edge_table) ∧ 1 ∈ stabilizers ∧
  (∀ x, incident edge_table 0 x ↔ x = 1) ∧
  activeStabilizersOver edge_table (mkState [0] []) = [1].
Proof.
  assert (NoDup (sites edge_table)) as Hkeys
    by (apply (bool_decide_unpack _); by vm_compute).
  assert (1 ∈ stabilizers) as Hc
    by (apply (bool_decide_unpack _); by vm_compute).
  assert (∀ x, incident edge_table 0 x ↔ x = 1) as Hone.
  { intros x. unfold edge_table. rewrite !incident_cons. unfold incident.
    rewrite Exists_nil, list_elem_of_singleton. split; [|tauto].
    intros [[_ H]|[[H _]|[]]]; [done|discriminate H]. }
  split; [exact Hkeys|]. split; [exact Hc|]. split; [exact Hone|].
  apply (single_check_fault_reports edge_table (mkState [0] []) 0 1
           Hkeys Hc Hone); simpl; [|done].
  intros x; apply list_elem_of_singleton.
Defined.

(** In the table of the component the scenario has no instance: every site
    is incident to two or to four checks. *)
Lemma adjacency_degrees :
  Forall (λ entry, length entry.2 = 2%nat ∨ length entry.2 = 4%nat) adjacency.
Proof. apply (bool_decide_unpack _). by vm_compute. Qed.

Lemma adjacency_no_single_check (s c : Z) :
  ¬ (∀ x, incident adjacency s x ↔ x = c).
Proof.
  intros Hone.
  assert (incident adjacency s c) as Hinc by (by apply Hone).
  unfold adjacency in Hinc. rewrite !incident_cons in Hinc.
  unfold incident in Hinc. rewrite Exists_nil in Hinc.
  assert (∀ a b, a ≠ b →
            incident adjacency s a → incident adjacency s b → False) as Hfork.
  { intros a b Hab Ha Hb. apply Hone in Ha, Hb. congruence. }
  destruct Hinc as [[Hs _]|[[Hs _]|[[Hs _]|[[Hs _]|[[Hs _]|[]]]]]]; subst s.
  - apply (Hfork 0 1); [done|..]; apply (bool_decide_unpack _); by vm_compute.
  - apply (Hfork 0 2); [done|..]; apply (bool_decide_unpack _); by vm_compute.
  - apply (Hfork 1 3); [done|..]; apply (bool_decide_unpack _); by vm_compute.
  - apply (Hfork 2 3); [done|..]; apply (bool_decide_unpack _); by vm_compute.
  - apply (Hfork 0 1); [done|..]; apply (bool_decide_unpack _); by vm_compute.
Qed.

(** ** The step counter of the decoder walkthrough *)

Section StepCounter.

Import TransformerDecoder.

Lemma advance_range (s : Z) : 0 ≤ s ≤ 3 → 0 ≤ advance s ≤ 3.
Proof.
  intros Hs. unfold advance. rewrite Z.rem_mod_nonneg by lia.
  pose proof (Z.mod_pos_bound (s + 1) 4). lia.
Qed.

Lemma retreat_range (s : Z) : 0 ≤ s ≤ 3 → 0 ≤ retreat s ≤ 3.
Proof.
  intros Hs. unfold retreat. rewrite Z.rem_mod_nonneg by lia.
  pose proof (Z.mod_pos_bound (s - 1 + 4) 4). lia.
Qed.

Lemma transition_range (st st' : TransformerDecoder.State) :
  transition st st' → 0 ≤ step st ≤ 3 → 0 ≤ step st' ≤ 3.
Proof.
  destruct 1; simpl; auto using advance_range, retreat_range.
Qed.

Lemma reachable_range (st : TransformerDecoder.State) :
  TransformerDecoder.reachable st → 0 ≤ step st ≤ 3.
Proof.
  induction 1 as [|st st' _ IH Htr]; [simpl; lia|].
  by apply (transition_range st st').
Qed.

(** Going forward and then back, or back and then forward, returns to the
    same step. *)
Lemma retreat_advance (s : Z) : 0 ≤ s ≤ 3 → retreat (advance s) = s.
Proof.
  intros Hs. assert (s = 0 ∨ s = 1 ∨ s = 2 ∨ s = 3) as Hcases by lia.
  destruct Hcases as [?|[?|[?|?]]]; subst s; reflexivity.
Qed.

Lemma advance_retreat (s : Z) : 0 ≤ s ≤ 3 → advance (retreat s) = s.
Proof.
  intros Hs. assert (s = 0 ∨ s = 1 ∨ s = 2 ∨ s = 3) as Hcases by lia.
  destruct Hcases as [?|[?|[?|?]]]; subst s; reflexivity.
Qed.

End StepCounter.

(** C9. The step of the walkthrough is a counter modulo 4: in every state
    reached from the initial step 0 it is one of 0, 1, 2, 3; [nextStep] and
    the timed advance take [s] to [(s + 1) mod 4], and [prevStep] takes [s]
    to [(s - 1 + 4) mod 4]. *)
Theorem step_counter_mod4 (st : TransformerDecoder.State) :
  TransformerDecoder.reachable st →
  let s := TransformerDecoder.step st in
  0 ≤ s ≤ 3 ∧
  TransformerDecoder.step (TransformerDecoder.nextStep st) = (s + 1) mod 4 ∧
  TransformerDecoder.step (TransformerDecoder.autoAdvance st) = (s + 1) mod 4 ∧
  TransformerDecoder.step (TransformerDecoder.prevStep st) = (s - 1 + 4) mod 4.
Proof.
  intros Hreach s. pose proof (reachable_range st Hreach) as Hs.
  fold s in Hs. split; [exact Hs|]. simpl. fold s.
  unfold TransformerDecoder.advance, TransformerDecoder.retreat.
  rewrite !Z.rem_mod_nonneg by lia. done.
Qed.

Lemma step_counter_mod4_witness :
  TransformerDecoder.reachable (TransformerDecoder.mkState 3 false 4) ∧
  TransformerDecoder.step
    (TransformerDecoder.nextStep (TransformerDecoder.mkState 3 false 4)) = 0 ∧
  TransformerDecoder.step
    (TransformerDecoder.prevStep (TransformerDecoder.mkState 0 false 4)) = 3.
Proof.
  assert (TransformerDecoder.reachable (TransformerDecoder.mkState 0 false 4))
    as H0.
  { apply (TransformerDecoder.reachable_transition TransformerDecoder.initial);
      [constructor|apply TransformerDecoder.t_play]. }
  assert (TransformerDecoder.reachable (TransformerDecoder.mkState 3 false 4))
    as H3.
  { apply (TransformerDecoder.reachable_transition _ _ H0).
    by apply TransformerDecoder.t_prev. }
  destruct (step_counter_mod4 _ H3) as (_ & Hnext & _ & _).
  destruct (step_counter_mod4 _ H0) as (_ & _ & _ & Hprev).
  split; [exact H3|]. split; [exact Hnext|exact Hprev].
Defined.

(** ** How the toggles act on the reporting checks *)

Section ToggleEffect.

Implicit Types (l : list Z) (id x c : Z).

(** [includes] after a toggle: flipped at [id], as before elsewhere. *)
Lemma includes_toggle id l x :
  includes (toggle id l) x = xorb (includes l x) (bool_decide (x = id)).
Proof.
  unfold includes. destruct (decide (x = id)) as [->|Hne].
  - rewrite (bool_decide_eq_true_2 (id = id)) by done. rewrite xorb_true_r.
    destruct (decide (id ∈ l)) as [Hin|Hout].
    + rewrite (bool_decide_eq_true_2 _ Hin). simpl.
      apply bool_decide_eq_false. rewrite toggle_flips. tauto.
    + rewrite (bool_decide_eq_false_2 _ Hout). simpl.
      apply bool_decide_eq_true. by rewrite toggle_flips.
  - rewrite (bool_decide_eq_false_2 (x = id)) by done. rewrite xorb_false_r.
    apply bool_decide_ext. by apply toggle_others.
Qed.

Lemma odd_rem (n : Z) : 0 ≤ n → negb (Z.rem n 2 =? 0) = Z.odd n.
Proof.
  intros Hn. rewrite Z.rem_mod_nonneg by lia. rewrite Zmod_odd.
  by destruct (Z.odd n).
Qed.

Lemma errorCount_nonneg adj (errs : list Z) c : 0 ≤ errorCount adj errs c.
Proof. rewrite errorCount_entries. lia. Qed.

(** In a list without duplicates, a predicate changed at one element only
    changes the count by that element. *)
Lemma filter_length_split (P : Z → Prop) `{!∀ x, Decision (P x)} l id :
  NoDup l → id ∈ l →
  length (filter P l) =
  (length (filter (λ x, x ≠ id ∧ P x) l) + if decide (P id) then 1 else 0)%nat.
Proof.
  induction l as [|a l IH]; [by rewrite elem_of_nil|].
  rewrite NoDup_cons, elem_of_cons. intros [Ha Hl] Hid.
  rewrite !filter_cons. destruct (decide (a = id)) as [->|Hne].
  - rewrite (decide_False (P:=id ≠ id ∧ P id)) by tauto.
    rewrite (filter_agree (λ x, x ≠ id ∧ P x) P l).
    2:{ intros x Hx. split; [tauto|]. intros HP. split; [|done].
        by intros ->. }
    destruct (decide (P id)); simpl; lia.
  - destruct Hid as [->|Hid]; [done|]. specialize (IH Hl Hid).
    destruct (decide (P a)) as [HPa|HPa].
    + rewrite (decide_True (P:=a ≠ id ∧ P a)) by tauto. simpl. lia.
    + rewrite (decide_False (P:=a ≠ id ∧ P a)) by tauto. done.
Qed.

Variable adj : list (Z * list Z).
Hypothesis adj_keys : NoDup (sites adj).

(** A toggle of [id] moves the count of a check by one when [id] is incident
    to it, up when the fault appears and down when it goes, and not at all
    otherwise. *)
Lemma errorCount_toggle (errs : list Z) id c :
  errorCount adj (toggle id errs) c =
  errorCount adj errs c +
  (if bool_decide (incident adj id c)
   then if includes errs id then -1 else 1
   else 0).
Proof.
  rewrite !errorCount_entries, !entries_sites by done.
  destruct (decide (incident adj id c)) as [Hinc|Hinc].
  - rewrite (bool_decide_eq_true_2 _ Hinc).
    pose proof (incident_site adj id c Hinc) as Hsite.
    rewrite (filter_length_split (λ s, s ∈ toggle id errs ∧ _) _ id adj_keys Hsite).
    rewrite (filter_length_split (λ s, s ∈ errs ∧ _) _ id adj_keys Hsite).
    rewrite (filter_agree
               (λ x, x ≠ id ∧ x ∈ toggle id errs ∧ incident adj x c)
               (λ x, x ≠ id ∧ x ∈ errs ∧ incident adj x c)).
    2:{ intros x _. split; intros (Hne & Hx & Hi); repeat split; try done;
          by apply (toggle_others id errs x Hne). }
    unfold includes. destruct (decide (id ∈ errs)) as [Hin|Hout].
    + rewrite (bool_decide_eq_true_2 _ Hin).
      rewrite (decide_False (P:=id ∈ toggle id errs ∧ _))
        by (rewrite toggle_flips; tauto).
      rewrite (decide_True (P:=id ∈ errs ∧ _)) by tauto. lia.
    + rewrite (bool_decide_eq_false_2 _ Hout).
      rewrite (decide_True (P:=id ∈ toggle id errs ∧ _))
        by (rewrite toggle_flips; tauto).
      rewrite (decide_False (P:=id ∈ errs ∧ _)) by tauto. lia.
  - rewrite (bool_decide_eq_false_2 _ Hinc). rewrite Z.add_0_r. do 2 f_equal.
    apply filter_agree. intros x _.
    destruct (decide (x = id)) as [->|Hne]; [tauto|].
    by rewrite (toggle_others id errs x Hne).
Qed.

Lemma isActive_toggleError (st : State) id c :
  isActive adj (toggleError id st) c =
  xorb (isActive adj st c) (bool_decide (incident adj id c)).
Proof.
  unfold isActive. simpl. rewrite errorCount_toggle.
  pose proof (errorCount_nonneg adj (toggle id (errors st)) c) as Hafter.
  rewrite errorCount_toggle in Hafter.
  pose proof (errorCount_nonneg adj (errors st) c) as Hbefore.
  rewrite !odd_rem by done.
  destruct (bool_decide (incident adj id c)).
  - assert (Z.odd (errorCount adj (errors st) c
                   + (if includes (errors st) id then -1 else 1))
            = negb (Z.odd (errorCount adj (errors st) c))) as ->.
    { set (n := errorCount adj (errors st) c).
      destruct (includes (errors st) id).
      - replace (n + -1) with (Z.pred n) by lia.
        by rewrite Z.odd_pred, Z.negb_odd.
      - replace (n + 1) with (Z.succ n) by lia.
        by rewrite Z.odd_succ, Z.negb_odd. }
    by destruct (Z.odd _), (includes (measurementErrors st) c).
  - rewrite Z.add_0_r. by rewrite xorb_false_r.
Qed.

Lemma isActive_toggleMeasurementError (st : State) id c :
  isActive adj (toggleMeasurementError id st) c =
  xorb (isActive adj st c) (bool_decide (c = id)).
Proof.
  unfold isActive. simpl. rewrite includes_toggle.
  by destruct (negb _), (includes (measurementErrors st) c),
       (bool_decide (c = id)).
Qed.

Lemma includes_active (st : State) c :
  includes (activeStabilizersOver adj st) c =
  bool_decide (c ∈ stabilizers) && isActive adj st c.
Proof.
  unfold includes, activeStabilizersOver.
  destruct (decide (c ∈ stabilizers)) as [Hc|Hc].
  - rewrite (bool_decide_eq_true_2 _ Hc). simpl.
    destruct (isActive adj st c) eqn:Hact.
    + apply bool_decide_eq_true. by rewrite list_elem_of_filter.
    + apply bool_decide_eq_false. rewrite list_elem_of_filter.
      rewrite Hact. intros [? _]. done.
  - rewrite (bool_decide_eq_false_2 _ Hc). simpl.
    apply bool_decide_eq_false. rewrite list_elem_of_filter. tauto.
Qed.

End ToggleEffect.

Lemma adjacency_checks (s c : Z) : incident adjacency s c → c ∈ stabilizers.
Proof.
  unfold adjacency. rewrite !incident_cons. unfold incident.
  rewrite Exists_nil.
  intros [[_ Hc]|[[_ Hc]|[[_ Hc]|[[_ Hc]|[[_ Hc]|[]]]]]];
    repeat (apply elem_of_cons in Hc as [Hc|Hc];
            [subst c; apply (bool_decide_unpack _); by vm_compute|]);
    by apply elem_of_nil in Hc.
Qed.

(** X1. A click on a data qubit flips exactly the stabilizers the qubit is
    incident to: a check is active afterwards if and only if it was active
    before XOR the toggled id is incident to it.  An id outside the table
    flips nothing. *)
Theorem toggleError_flips_incident (st : State) (id c : Z) :
  includes (activeStabilizers (toggleError id st)) c =
  xorb (includes (activeStabilizers st) c)
       (bool_decide (incident adjacency id c)).
Proof.
  unfold activeStabilizers. rewrite !includes_active.
  rewrite (isActive_toggleError adjacency adjacency_keys).
  destruct (decide (incident adjacency id c)) as [Hinc|Hinc].
  - rewrite (bool_decide_eq_true_2 _ Hinc).
    rewrite (bool_decide_eq_true_2 _ (adjacency_checks id c Hinc)).
    by destruct (isActive adjacency st c).
  - rewrite (bool_decide_eq_false_2 _ Hinc).
    by destruct (bool_decide (c ∈ stabilizers)), (isActive adjacency st c).
Qed.

(** X2. A click on a stabilizer flips that stabilizer and no other: a check
    is active afterwards if and only if it was active before XOR it is the
    toggled one (and one of the four checks). *)
Theorem toggleMeasurementError_flips_check (st : State) (id c : Z) :
  includes (activeStabilizers (toggleMeasurementError id st)) c =
  xorb (includes (activeStabilizers st) c)
       (bool_decide (c = id) && bool_decide (c ∈ stabilizers)).
Proof.
  unfold activeStabilizers. rewrite !includes_active.
  rewrite isActive_toggleMeasurementError.
  by destruct (bool_decide (c ∈ stabilizers)), (isActive adjacency st c),
       (bool_decide (c = id)).
Qed.

(** ** The component's table, state by state *)

Section Enumeration.

Lemma restrict_cons (ids : list Z) (a : Z) (u : list Z) :
  restrict ids (a :: u) =
  if bool_decide (a ∈ ids) then a :: restrict ids u else restrict ids u.
Proof.
  unfold restrict. rewrite filter_cons.
  destruct (decide (a ∈ ids)) as [Ha|Ha].
  - by rewrite (bool_decide_eq_true_2 _ Ha).
  - by rewrite (bool_decide_eq_false_2 _ Ha).
Qed.

Lemma elem_of_restrict (ids u : list Z) (x : Z) :
  x ∈ u → (x ∈ ids ↔ x ∈ restrict ids u).
Proof. intros Hx. unfold restrict. rewrite list_elem_of_filter. tauto. Qed.

(** [activeStabilizers] only looks at the sites of the table and at the
    four checks. *)
Lemma active_restrict (st : State) :
  activeStabilizers st =
  activeStabilizers
    (mkState (restrict (errors st) (sites adjacency))
             (restrict (measurementErrors st) stabilizers)).
Proof.
  unfold activeStabilizers. apply active_agree; simpl.
  - intros s Hs. by apply elem_of_restrict.
  - intros c Hc. by apply elem_of_restrict.
Qed.

Lemma iff_by_decide (P Q : Prop) `{!Decision P} `{!Decision Q} :
  bool_decide P = bool_decide Q → (P ↔ Q).
Proof.
  intros H. rewrite <- (bool_decide_spec P), <- (bool_decide_spec Q).
  by rewrite H.
Qed.

End Enumeration.

Ltac expand_restrict :=
  change (sites adjacency) with [0; 1; 2; 3; 4];
  unfold stabilizers;
  rewrite ?restrict_cons;
  repeat match goal with
         | |- context [restrict ?ids []] =>
             change (restrict ids []) with (@nil Z)
         end.

Ltac by_membership tac :=
  repeat match goal with
         | |- context [bool_decide (?a ∈ ?l)] => destruct (bool_decide (a ∈ l))
         end;
  tac.

(** X3. The number of parity violations is at most four and is odd exactly
    when an odd number of the four checks is corrupted; with no measurement
    noise it is therefore 0, 2 or 4. *)
Theorem violations_parity (st : State) :
  (length (activeStabilizers st) ≤ 4)%nat ∧
  Nat.odd (length (activeStabilizers st)) =
  Nat.odd (length (restrict (measurementErrors st) stabilizers)).
Proof.
  rewrite active_restrict. expand_restrict.
  by_membership ltac:(split; [vm_compute; lia|vm_compute; reflexivity]).
Qed.

(** X4. A single faulted data qubit, with no measurement noise, lights up
    exactly the stabilizers listed for it in the adjacency table, in the
    order of the table: two for a corner qubit, all four for the centre. *)
Theorem single_fault_lights_row (st : State) (s : Z) (stabs : list Z) :
  (s, stabs) ∈ adjacency →
  (∀ x, x ∈ errors st ↔ x = s) →
  measurementErrors st = [] →
  activeStabilizers st = stabs.
Proof.
  intros Hrow Honly Hmeas.
  assert (activeStabilizers st = activeStabilizers (mkState [s] [])) as ->.
  { unfold activeStabilizers. apply active_agree; simpl.
    - intros x _. by rewrite Honly, list_elem_of_singleton.
    - intros c _. by rewrite Hmeas. }
  unfold adjacency in Hrow.
  repeat (apply elem_of_cons in Hrow as [Hrow|Hrow];
          [injection Hrow as -> ->; reflexivity|]).
  by apply elem_of_nil in Hrow.
Qed.

Lemma single_fault_lights_row_witness :
  (4, [0; 1; 2; 3]) ∈ adjacency ∧
  activeStabilizers (mkState [4] []) = [0; 1; 2; 3].
Proof.
  assert ((4, [0; 1; 2; 3]) ∈ adjacency) as Hrow
    by (apply (bool_decide_unpack _); by vm_compute).
  split; [exact Hrow|].
  apply (single_fault_lights_row (mkState [4] []) 4 [0; 1; 2; 3] Hrow);
    simpl; [|done].
  intros x. apply list_elem_of_singleton.
Defined.

(** X5. With no measurement noise, no stabilizer is active exactly when the
    faulted data qubits of the table are none, or 0,1,2,3, or 0,3,4, or
    1,2,4: these and only these fault patterns go undetected. *)
Theorem undetected_faults (st : State) :
  measurementErrors st = [] →
  (activeStabilizers st = [] ↔
   restrict (errors st) (sites adjacency)
   ∈ [ []; [0; 1; 2; 3]; [0; 3; 4]; [1; 2; 4] ]).
Proof.
  intros Hmeas. rewrite active_restrict, Hmeas.
  change (restrict [] stabilizers) with (@nil Z).
  change (sites adjacency) with [0; 1; 2; 3; 4]. rewrite !restrict_cons.
  change (restrict (errors st) []) with (@nil Z).
  by_membership ltac:(refine (iff_by_decide _ _ _); vm_compute; reflexivity).
Qed.

Lemma undetected_faults_witness :
  measurementErrors (mkState [3; 0; 4] []) = [] ∧
  activeStabilizers (mkState [3; 0; 4] []) = [].
Proof.
  assert (measurementErrors (mkState [3; 0; 4] []) = []) as Hmeas
    by reflexivity.
  split; [exact Hmeas|].
  apply (undetected_faults (mkState [3; 0; 4] []) Hmeas).
  apply (bool_decide_unpack _). by vm_compute.
Defined.

(** ** Sequences of clicks *)

Section Clicks.

Lemma occurrences_cons (a b : action) (acts : list action) :
  occurrences a (b :: acts) =
  ((if bool_decide (b = a) then 1 else 0) + occurrences a acts)%nat.
Proof.
  unfold occurrences. rewrite filter_cons.
  destruct (decide (b = a)) as [Hb|Hb].
  - by rewrite (bool_decide_eq_true_2 _ Hb).
  - by rewrite (bool_decide_eq_false_2 _ Hb).
Qed.

Lemma run_cons (a : action) (acts : list action) (st : State) :
  run (a :: acts) st = run acts (perform a st).
Proof. reflexivity. Qed.

Lemma run_app (acts acts' : list action) (st : State) :
  run (acts ++ acts') st = run acts' (run acts st).
Proof. unfold run. apply fold_left_app. Qed.

(** Without a reset in between, an id is in an array exactly when it was
    there before XOR it was clicked an odd number of times. *)
Lemma run_includes (acts : list action) (st : State) (x : Z) :
  ResetAll ∉ acts →
  includes (errors (run acts st)) x =
    xorb (includes (errors st) x)
         (Nat.odd (occurrences (ToggleError x) acts)) ∧
  includes (measurementErrors (run acts st)) x =
    xorb (includes (measurementErrors st) x)
         (Nat.odd (occurrences (ToggleMeasurementError x) acts)).
Proof.
  revert st. induction acts as [|a acts IH]; intros st Hno.
  - simpl. by rewrite !xorb_false_r.
  - apply not_elem_of_cons in Hno as [Ha Hno].
    rewrite run_cons, !occurrences_cons.
    destruct (IH (perform a st) Hno) as [-> ->].
    destruct a as [id|id|]; [| |done]; simpl.
    + rewrite includes_toggle.
      split; [|done].
      destruct (decide (x = id)) as [->|Hne].
      * rewrite (bool_decide_eq_true_2 (id = id)) by done.
        rewrite (bool_decide_eq_true_2 (ToggleError id = ToggleError id))
          by done.
        change (1 + ?n)%nat with (S n). rewrite Nat.odd_succ, <- Nat.negb_odd.
        by destruct (includes (errors st) id),
             (Nat.odd (occurrences (ToggleError id) acts)).
      * rewrite (bool_decide_eq_false_2 (x = id)) by done.
        rewrite (bool_decide_eq_false_2 (ToggleError id = ToggleError x))
          by congruence.
        by rewrite xorb_false_r.
    + rewrite includes_toggle.
      split; [done|].
      destruct (decide (x = id)) as [->|Hne].
      * rewrite (bool_decide_eq_true_2 (id = id)) by done.
        rewrite (bool_decide_eq_true_2
                   (ToggleMeasurementError id = ToggleMeasurementError id))
          by done.
        change (1 + ?n)%nat with (S n). rewrite Nat.odd_succ, <- Nat.negb_odd.
        by destruct (includes (measurementErrors st) id),
             (Nat.odd (occurrences (ToggleMeasurementError id) acts)).
      * rewrite (bool_decide_eq_false_2 (x = id)) by done.
        rewrite (bool_decide_eq_false_2
                   (ToggleMeasurementError id = ToggleMeasurementError x))
          by congruence.
        by rewrite xorb_false_r.
Qed.

Lemma occurrences_Permutation (a : action) (acts acts' : list action) :
  acts ≡ₚ acts' → occurrences a acts = occurrences a acts'.
Proof. intros Hp. unfold occurrences. by rewrite Hp. Qed.

Lemma includes_elem (l l' : list Z) :
  (∀ x, includes l x = includes l' x) → ∀ x, x ∈ l ↔ x ∈ l'.
Proof.
  intros H x. rewrite <- !includes_true. by rewrite H.
Qed.

End Clicks.

(** X6. Starting from the empty arrays and without a reset, a data qubit is
    faulted exactly when it was clicked an odd number of times, and a
    stabilizer is corrupted exactly when it was clicked an odd number of
    times. *)
Theorem click_parity (acts : list action) (x : Z) :
  ResetAll ∉ acts →
  includes (errors (run acts initial)) x
    = Nat.odd (occurrences (ToggleError x) acts) ∧
  includes (measurementErrors (run acts initial)) x
    = Nat.odd (occurrences (ToggleMeasurementError x) acts).
Proof.
  intros Hno. destruct (run_includes acts initial x Hno) as [He Hm].
  by rewrite He, Hm.
Qed.

Lemma click_parity_witness :
  (ResetAll ∉ [ToggleError 4; ToggleError 0; ToggleError 4]) ∧
  includes (errors (run [ToggleError 4; ToggleError 0; ToggleError 4] initial)) 4
    = false.
Proof.
  assert (ResetAll ∉ [ToggleError 4; ToggleError 0; ToggleError 4]) as Hno
    by (apply (bool_decide_unpack _); by vm_compute).
  split; [exact Hno|].
  by destruct (click_parity [ToggleError 4; ToggleError 0; ToggleError 4] 4 Hno)
    as [-> _].
Defined.

(** X7. The order of the clicks does not matter: two sequences of toggles
    that are rearrangements of each other, applied to the same state, lead
    to the same faulted sites, corrupted checks and reporting checks. *)
Theorem click_order_irrelevant (acts acts' : list action) (st : State) :
  acts ≡ₚ acts' →
  ResetAll ∉ acts →
  getState (run acts st) = getState (run acts' st).
Proof.
  intros Hp Hno.
  assert (ResetAll ∉ acts') as Hno' by (by rewrite <- Hp).
  apply getState_agree; apply includes_elem; intros x.
  - destruct (run_includes acts st x Hno) as [-> _].
    destruct (run_includes acts' st x Hno') as [-> _].
    by rewrite (occurrences_Permutation _ _ _ Hp).
  - destruct (run_includes acts st x Hno) as [_ ->].
    destruct (run_includes acts' st x Hno') as [_ ->].
    by rewrite (occurrences_Permutation _ _ _ Hp).
Qed.

Lemma click_order_irrelevant_witness :
  [ToggleError 0; ToggleMeasurementError 2; ToggleError 4]
    ≡ₚ [ToggleError 4; ToggleError 0; ToggleMeasurementError 2] ∧
  getState (run [ToggleError 0; ToggleMeasurementError 2; ToggleError 4]
                initial)
  = getState (run [ToggleError 4; ToggleError 0; ToggleMeasurementError 2]
                  initial).
Proof.
  assert ([ToggleError 0; ToggleMeasurementError 2; ToggleError 4]
            ≡ₚ [ToggleError 4; ToggleError 0; ToggleMeasurementError 2]) as Hp.
  { symmetry.
    apply (Permutation_cons_append
             [ToggleError 0; ToggleMeasurementError 2] (ToggleError 4)). }
  split; [exact Hp|].
  apply (click_order_irrelevant _ _ initial Hp).
  apply (bool_decide_unpack _). by vm_compute.
Defined.

(** ** Which states the clicks reach *)

Section Reach.

Lemma run_ToggleError (errs ms : list Z) :
  NoDup errs → run (ToggleError <$> errs) (mkState [] ms) = mkState errs ms.
Proof.
  induction errs as [|a errs IH] using rev_ind; intros Hnd; [done|].
  apply NoDup_app in Hnd as (Hnd & Hfresh & _).
  rewrite fmap_app, run_app, (IH Hnd). simpl.
  unfold toggleError. simpl. rewrite toggle_absent; [done|].
  intros Ha. apply (Hfresh a Ha). by left.
Qed.

Lemma run_ToggleMeasurementError (errs ms : list Z) :
  NoDup ms →
  run (ToggleMeasurementError <$> ms) (mkState errs []) = mkState errs ms.
Proof.
  induction ms as [|a ms IH] using rev_ind; intros Hnd; [done|].
  apply NoDup_app in Hnd as (Hnd & Hfresh & _).
  rewrite fmap_app, run_app, (IH Hnd). simpl.
  unfold toggleMeasurementError. simpl. rewrite toggle_absent; [done|].
  intros Ha. apply (Hfresh a Ha). by left.
Qed.

Lemma filter_ne_present (l : list Z) (id : Z) :
  NoDup l → id ∈ l → S (length (filter (λ e, e ≠ id) l)) = length l.
Proof.
  induction l as [|a l IH]; [by rewrite elem_of_nil|].
  rewrite NoDup_cons, elem_of_cons. intros [Ha Hl] Hid.
  destruct (decide (a = id)) as [->|Hne].
  - rewrite filter_cons_False by (intros H; by apply H).
    by rewrite filter_ne_absent.
  - destruct Hid as [->|Hid]; [done|].
    rewrite filter_cons_True by done. simpl. by rewrite (IH Hl Hid).
Qed.

Lemma dataQubits_sites (x : Z) : x ∈ dataQubits → x ∈ sites adjacency.
Proof.
  unfold dataQubits. intros Hx.
  repeat (apply elem_of_cons in Hx as [Hx|Hx];
          [subst x; apply (bool_decide_unpack _); by vm_compute|]).
  by apply elem_of_nil in Hx.
Qed.

Lemma elem_of_toggle_inv (id x : Z) (l : list Z) :
  x ∈ toggle id l → x ∈ l ∨ x = id.
Proof. rewrite elem_of_toggle. tauto. Qed.

(** What the rendered buttons keep true. *)
Lemma click_invariant (st : State) :
  clickReachable st →
  NoDup (errors st) ∧ NoDup (measurementErrors st) ∧
  errors st ⊆ sites adjacency ∧ measurementErrors st ⊆ stabilizers.
Proof.
  induction 1 as [|a st _ (IHe & IHm & IHse & IHsm) Hclick].
  - repeat split; try apply NoDup_nil_2; intros x Hx;
      by apply elem_of_nil in Hx.
  - destruct a as [id|id|]; simpl in *.
    + repeat split; auto using toggle_NoDup.
      intros x Hx. apply elem_of_toggle_inv in Hx as [Hx| ->]; [by apply IHse|].
      by apply dataQubits_sites.
    + repeat split; auto using toggle_NoDup.
      intros x Hx. apply elem_of_toggle_inv in Hx as [Hx| ->]; [by apply IHsm|].
      done.
    + repeat split; try apply NoDup_nil_2; intros x Hx;
        by apply elem_of_nil in Hx.
Qed.

End Reach.

(** X8. Every pair of arrays without duplicates is reached from the empty
    state by toggles: clicking the ids of the two arrays in order builds
    exactly these arrays. *)
Theorem NoDup_reachable (errs ms : list Z) :
  NoDup errs → NoDup ms →
  run ((ToggleError <$> errs) ++ (ToggleMeasurementError <$> ms)) initial
    = mkState errs ms ∧
  reachable (mkState errs ms).
Proof.
  intros He Hm.
  assert (run ((ToggleError <$> errs) ++ (ToggleMeasurementError <$> ms))
              initial = mkState errs ms) as Hrun.
  { rewrite run_app. unfold initial.
    by rewrite (run_ToggleError errs [] He),
               (run_ToggleMeasurementError errs ms Hm). }
  split; [exact Hrun|]. rewrite <- Hrun. apply reachable_run.
Qed.

Lemma NoDup_reachable_witness :
  NoDup [4; 0] ∧ NoDup [2] ∧ reachable (mkState [4; 0] [2]).
Proof.
  assert (NoDup [4; 0]) as He by (apply (bool_decide_unpack _); by vm_compute).
  assert (NoDup [2]) as Hm by (apply (bool_decide_unpack _); by vm_compute).
  split; [exact He|]. split; [exact Hm|].
  exact (proj2 (NoDup_reachable [4; 0] [2] He Hm)).
Defined.

(** X9. On an array without duplicates a toggle changes the length by
    exactly one: one entry less when the id was there, one more when it was
    not. *)
Theorem toggle_length (id : Z) (l : list Z) :
  NoDup l →
  length (toggle id l) =
  if includes l id then (length l - 1)%nat else (length l + 1)%nat.
Proof.
  intros Hnd. destruct (decide (id ∈ l)) as [Hin|Hout].
  - rewrite (toggle_present id l Hin), (proj2 (includes_true l id) Hin).
    pose proof (filter_ne_present l id Hnd Hin). lia.
  - rewrite (toggle_absent id l Hout), (proj2 (includes_false l id) Hout).
    rewrite length_app. simpl. lia.
Qed.

Lemma toggle_length_witness :
  NoDup [0; 4; 1] ∧ length (toggle 4 [0; 4; 1]) = 2%nat.
Proof.
  assert (NoDup [0; 4; 1]) as Hnd
    by (apply (bool_decide_unpack _); by vm_compute).
  split; [exact Hnd|]. exact (toggle_length 4 [0; 4; 1] Hnd).
Defined.

(** X10. Through the buttons the component renders, only ids of the table
    are ever recorded: every faulted id is a site of the adjacency table,
    every corrupted id is one of the four checks, and so at most five faults
    and four corruptions are held. *)
Theorem clicks_stay_in_table (st : State) :
  clickReachable st →
  errors st ⊆ sites adjacency ∧
  measurementErrors st ⊆ stabilizers ∧
  (length (errors st) ≤ 5)%nat ∧
  (length (measurementErrors st) ≤ 4)%nat.
Proof.
  intros Hreach.
  destruct (click_invariant st Hreach) as (He & Hm & Hse & Hsm).
  repeat split; try done.
  - apply (submseteq_length _ (sites adjacency)). by apply NoDup_submseteq.
  - apply (submseteq_length _ stabilizers). by apply NoDup_submseteq.
Qed.

Lemma clicks_stay_in_table_witness :
  clickReachable (mkState [4; 0] [2]) ∧
  (length (errors (mkState [4%Z; 0%Z] [2%Z])) ≤ 5)%nat.
Proof.
  assert (clickReachable (mkState [4; 0] [2])) as Hreach.
  { apply (click_perform (ToggleMeasurementError 2) (mkState [4; 0] []));
      [|apply (bool_decide_unpack _); by vm_compute].
    apply (click_perform (ToggleError 0) (mkState [4] []));
      [|apply (bool_decide_unpack _); by vm_compute].
    apply (click_perform (ToggleError 4) initial);
      [|apply (bool_decide_unpack _); by vm_compute].
    apply click_initial. }
  split; [exact Hreach|].
  exact (proj1 (proj2 (proj2 (clicks_stay_in_table _ Hreach)))).
Defined.

(** ** Walking through the decoder steps *)

Section DecoderWalk.

Import TransformerDecoder.

Lemma step_cases (st : TransformerDecoder.State) :
  TransformerDecoder.reachable st →
  step st = 0 ∨ step st = 1 ∨ step st = 2 ∨ step st = 3.
Proof. intros Hreach. pose proof (reachable_range st Hreach). lia. Qed.

Lemma advance_mod (s : Z) : 0 ≤ s → advance s = (s + 1) mod 4.
Proof. intros Hs. unfold advance. by rewrite Z.rem_mod_nonneg by lia. Qed.

Lemma retreat_mod (s : Z) : 0 ≤ s → retreat s = (s - 1) mod 4.
Proof.
  intros Hs. unfold retreat. rewrite Z.rem_mod_nonneg by lia.
  replace (s - 1 + 4) with (s - 1 + 1 * 4) by lia. apply Z_mod_plus_full.
Qed.

(** The interval keeps running from the initial state: [k] ticks are [k]
    transitions. *)
Lemma ticks_reachable (k : nat) :
  TransformerDecoder.reachable (Nat.iter k autoAdvance TransformerDecoder.initial)
  ∧ isPlaying (Nat.iter k autoAdvance TransformerDecoder.initial) = true.
Proof.
  induction k as [|k [IHr IHp]]; simpl; [split; [constructor|done]|].
  split; [|done].
  eapply TransformerDecoder.reachable_transition; [exact IHr|].
  by apply t_tick.
Qed.

(** X11. After [k] presses of the next button, or [k] ticks of the interval,
    the step is [(s + k) mod 4]; after [k] presses of the previous button
    it is [(s - k) mod 4].  Four steps either way return to the start. *)
Theorem steps_add (st : TransformerDecoder.State) (k : nat) :
  TransformerDecoder.reachable st →
  step (Nat.iter k nextStep st) = (step st + Z.of_nat k) mod 4 ∧
  step (Nat.iter k autoAdvance st) = (step st + Z.of_nat k) mod 4 ∧
  step (Nat.iter k prevStep st) = (step st - Z.of_nat k) mod 4.
Proof.
  intros Hreach. pose proof (reachable_range st Hreach) as Hs.
  induction k as [|k (IHn & IHa & IHp)].
  - simpl. rewrite Z.add_0_r, Z.sub_0_r. by rewrite Z.mod_small by lia.
  - simpl. rewrite IHn, IHa, IHp.
    pose proof (Z.mod_pos_bound (step st + Z.of_nat k) 4 ltac:(lia)).
    pose proof (Z.mod_pos_bound (step st - Z.of_nat k) 4 ltac:(lia)).
    rewrite advance_mod, retreat_mod by lia.
    rewrite Zplus_mod_idemp_l, Zminus_mod_idemp_l.
    repeat split; f_equal; lia.
Qed.

Lemma steps_add_witness :
  TransformerDecoder.reachable TransformerDecoder.initial ∧
  step (Nat.iter 6 nextStep TransformerDecoder.initial) = 2 ∧
  step (Nat.iter 1 prevStep TransformerDecoder.initial) = 3.
Proof.
  assert (TransformerDecoder.reachable TransformerDecoder.initial) as H0
    by constructor.
  destruct (steps_add _ 6 H0) as (Hn & _ & _).
  destruct (steps_add _ 1 H0) as (_ & _ & Hp).
  split; [exact H0|]. split; [exact Hn|exact Hp].
Defined.

(** X12. The next and previous buttons undo each other: pressing one and
    then the other gives back the state the walkthrough was in. *)
Theorem next_prev_round_trip (st : TransformerDecoder.State) :
  TransformerDecoder.reachable st →
  prevStep (nextStep st) = st ∧ nextStep (prevStep st) = st.
Proof.
  intros Hreach. pose proof (reachable_range st Hreach) as Hs.
  destruct st as [s p h]. unfold prevStep, nextStep. simpl in *.
  by rewrite retreat_advance, advance_retreat.
Qed.

Lemma next_prev_round_trip_witness :
  TransformerDecoder.reachable (TransformerDecoder.mkState 0 false 4) ∧
  nextStep (prevStep (TransformerDecoder.mkState 0 false 4))
  = TransformerDecoder.mkState 0 false 4.
Proof.
  assert (TransformerDecoder.reachable (TransformerDecoder.mkState 0 false 4))
    as H0.
  { apply (TransformerDecoder.reachable_transition TransformerDecoder.initial);
      [constructor|apply t_play]. }
  split; [exact H0|]. exact (proj2 (next_prev_round_trip _ H0)).
Defined.

(** X13. The steps the walkthrough can be in are exactly 0, 1, 2 and 3:
    each of them is reached, and no other value is. *)
Theorem reachable_steps (s : Z) :
  (∃ st, TransformerDecoder.reachable st ∧ step st = s) ↔ 0 ≤ s ≤ 3.
Proof.
  split.
  - intros (st & Hreach & <-). by apply reachable_range.
  - intros Hs. exists (Nat.iter (Z.to_nat s) autoAdvance TransformerDecoder.initial).
    split; [apply ticks_reachable|].
    assert (s = 0 ∨ s = 1 ∨ s = 2 ∨ s = 3) as Hcases by lia.
    destruct Hcases as [?|[?|[?|?]]]; subst s; reflexivity.
Qed.

(** X14. The caption lookup [stepsInfo[step]] never misses: in every
    reachable state the array has an entry at [step]. *)
Theorem stepsInfo_defined (st : TransformerDecoder.State) :
  TransformerDecoder.reachable st → is_Some (stepsInfoAt (step st)).
Proof.
  intros Hreach.
  destruct (step_cases st Hreach) as [H|[H|[H|H]]]; rewrite H; by eexists.
Qed.

Lemma stepsInfo_defined_witness :
  TransformerDecoder.reachable TransformerDecoder.initial ∧
  is_Some (stepsInfoAt (step TransformerDecoder.initial)).
Proof.
  assert (TransformerDecoder.reachable TransformerDecoder.initial) as H0
    by constructor.
  split; [exact H0|]. exact (stepsInfo_defined _ H0).
Defined.

(** Outside 0..3 the array has no entry. *)
Lemma stepsInfoAt_bounds (s : Z) : is_Some (stepsInfoAt s) ↔ 0 ≤ s ≤ 3.
Proof.
  unfold stepsInfoAt. destruct (Z.ltb_spec s 0) as [Hneg|Hpos].
  - split; [intros [? ?]; done|lia].
  - rewrite lookup_lt_is_Some. simpl. lia.
Qed.

(** X15. In every reachable state exactly one dot of the progress bar is
    wide and exactly one of the three stages is highlighted. *)
Theorem one_highlight (st : TransformerDecoder.State) :
  TransformerDecoder.reachable st →
  length (filter (λ b, b = true) (progressBar st)) = 1%nat ∧
  length (filter (λ b, b = true) (stageHighlights st)) = 1%nat.
Proof.
  intros Hreach. unfold progressBar, stageHighlights.
  destruct (step_cases st Hreach) as [H|[H|[H|H]]]; rewrite H;
    split; reflexivity.
Qed.

Lemma one_highlight_witness :
  TransformerDecoder.reachable TransformerDecoder.initial ∧
  length (filter (λ b, b = true) (progressBar TransformerDecoder.initial))
  = 1%nat.
Proof.
  assert (TransformerDecoder.reachable TransformerDecoder.initial) as H0
    by constructor.
  split; [exact H0|]. exact (proj1 (one_highlight _ H0)).
Defined.

End DecoderWalk.
